(** * Snek: a shallow embedding of the snake model of src/main.rs

    Coordinates are [i32] (modelled as [Z] with checked arithmetic, as in
    the default debug profile where an overflowing [+] or [-] panics),
    grid dimensions are [u32] (modelled as [Z] in [0, 2^32)), lengths are
    [usize] (modelled as [nat], subtraction checked).  Randomness comes
    from [fastrand]: the generator is a stream [rng : nat -> Z] of raw
    values together with an index threaded through the calls.
    Non-termination of the rejection-sampling loop of [rand_point] is
    modelled with fuel: running out of fuel yields [Diverge]. *)

From Stdlib Require Import ZArith List Bool Lia Arith.
From Stdlib Require Strings.String Strings.Ascii.
Import ListNotations.
Open Scope Z_scope.

(** ** Outcomes: a value, a panic (with its cause), or divergence *)

Inductive panic_kind : Type :=
| UnwrapNone      (* [Option::unwrap] on [None] *)
| RemoveOOB       (* [Vec::remove] with index >= len *)
| Overflow        (* arithmetic overflow / underflow *)
| EmptyRange.     (* [fastrand] called with an empty range *)

Inductive res (A : Type) : Type :=
| Ok (a : A)
| Panic (k : panic_kind)
| Diverge.
Arguments Ok {A} a.
Arguments Panic {A} k.
Arguments Diverge {A}.

Definition bind {A B : Type} (m : res A) (f : A -> res B) : res B :=
  match m with
  | Ok a => f a
  | Panic k => Panic k
  | Diverge => Diverge
  end.

Notation "'let*' x ':=' m 'in' f" := (bind m (fun x => f))
  (at level 200, x pattern, m at level 100, f at level 200).

(** ** Machine integers *)

Definition i32_min : Z := - 2 ^ 31.
Definition i32_max : Z := 2 ^ 31 - 1.

(** [a + b] on [i32], panicking on overflow. *)
Definition add_i32 (a b : Z) : res Z :=
  let r := a + b in
  if (i32_min <=? r) && (r <=? i32_max) then Ok r else Panic Overflow.

(** [a - b] on [i32], panicking on overflow. *)
Definition sub_i32 (a b : Z) : res Z :=
  let r := a - b in
  if (i32_min <=? r) && (r <=? i32_max) then Ok r else Panic Overflow.

(** [w as i32] for a [u32] value [w]: a two's-complement reinterpretation. *)
Definition as_i32 (w : Z) : Z :=
  if w <? 2 ^ 31 then w else w - 2 ^ 32.

(** [a - b] on [usize], panicking on underflow. *)
Definition sub_usize (a b : nat) : res nat :=
  if (b <=? a)%nat then Ok (a - b)%nat else Panic Overflow.

(** ** Geometry: [Point2D<i32>] and [Vector2D<i32>] *)

Record Point : Type := point_new { x : Z; y : Z }.
Record Vector : Type := vector_new { vx : Z; vy : Z }.

Definition point_eqb (p q : Point) : bool :=
  (x p =? x q) && (y p =? y q).

(** [Point + Vector] (euclid: componentwise [+]). *)
Definition point_add (p : Point) (v : Vector) : res Point :=
  let* nx := add_i32 (x p) (vx v) in
  let* ny := add_i32 (y p) (vy v) in
  Ok (point_new nx ny).

(** [slice.contains(&p)] *)
Definition contains (l : list Point) (p : Point) : bool :=
  existsb (point_eqb p) l.

(** [slice.last()] *)
Fixpoint last_opt {A : Type} (l : list A) : option A :=
  match l with
  | [] => None
  | [a] => Some a
  | _ :: t => last_opt t
  end.

(** [Vec::remove(0)] *)
Definition remove0 {A : Type} (l : list A) : res (list A) :=
  match l with
  | [] => Panic RemoveOOB
  | _ :: t => Ok t
  end.

(** ** Direction *)

Inductive Direction : Type := Up | Down | Left | Right.

Definition direction_eqb (a b : Direction) : bool :=
  match a, b with
  | Up, Up | Down, Down | Left, Left | Right, Right => true
  | _, _ => false
  end.

Definition opposite (d : Direction) : Direction :=
  match d with
  | Up => Down
  | Down => Up
  | Left => Right
  | Right => Left
  end.

Definition to_vector (d : Direction) : Vector :=
  match d with
  | Up => vector_new 0 (-1)
  | Down => vector_new 0 1
  | Left => vector_new (-1) 0
  | Right => vector_new 1 0
  end.

(** ** Random points *)

Section Random.

Variable rng : nat -> Z.

(** [fastrand::i32(lo..hi)]: the next value of the generator, in range;
    panics on an empty range. *)
Definition fastrand_i32 (lo hi : Z) (s : nat) : res (Z * nat) :=
  if lo <? hi then Ok (lo + rng s mod (hi - lo), S s) else Panic EmptyRange.

(** [Point::new(fastrand::i32(0..width as i32), fastrand::i32(0..height as i32))] *)
Definition draw (width height : Z) (s : nat) : res (Point * nat) :=
  let* (px, s1) := fastrand_i32 0 (as_i32 width) s in
  let* (py, s2) := fastrand_i32 0 (as_i32 height) s1 in
  Ok (point_new px py, s2).

(** [while exclude.contains(&point) { point = ... }], with fuel. *)
Fixpoint rand_point_loop (fuel : nat) (width height : Z) (exclude : list Point)
    (point : Point) (s : nat) : res (Point * nat) :=
  if contains exclude point then
    match fuel with
    | O => Diverge
    | S f =>
        let* (p, s') := draw width height s in
        rand_point_loop f width height exclude p s'
    end
  else Ok (point, s).

(** [rand_point(width, height, exclude)] *)
Definition rand_point (fuel : nat) (width height : Z) (exclude : list Point)
    (s : nat) : res (Point * nat) :=
  let* (p, s') := draw width height s in
  rand_point_loop fuel width height exclude p s'.

End Random.

(** ** The snek *)

Record Snek : Type := mkSnek {
  body : list Point;
  start_len : nat;
  direction : Direction;
  eating : bool;
  alive : bool
}.

Definition set_body (s : Snek) (b : list Point) : Snek :=
  mkSnek b (start_len s) (direction s) (eating s) (alive s).
Definition set_direction (s : Snek) (d : Direction) : Snek :=
  mkSnek (body s) (start_len s) d (eating s) (alive s).
Definition set_eating (s : Snek) (e : bool) : Snek :=
  mkSnek (body s) (start_len s) (direction s) e (alive s).

(** [Snek::new] *)
Definition snek_new (starting_body : list Point) : Snek :=
  mkSnek starting_body (length starting_body) Right false true.

(** [Snek::eat] *)
Definition eat (s : Snek) (food : Point) : res Snek :=
  match last_opt (body s) with
  | None => Panic UnwrapNone
  | Some h => if point_eqb h food then Ok (set_eating s true) else Ok s
  end.

(** [Snek::dead]; the disjunction is evaluated left to right with
    short-circuit, so the subtractions only run when they are reached. *)
Definition dead (s : Snek) (width height : Z) : res bool :=
  match last_opt (body s) with
  | None => Panic UnwrapNone
  | Some last =>
      if contains (removelast (body s)) last then Ok true
      else if x last <? 0 then Ok true
      else if y last <? 0 then Ok true
      else
        let* wm := sub_i32 (as_i32 width) 1 in
        if wm <? x last then Ok true
        else
          let* hm := sub_i32 (as_i32 height) 1 in
          Ok (hm <? y last)
  end.

(** [Snek::change_direction] *)
Definition change_direction (s : Snek) (d : Direction) : Snek :=
  if negb (direction_eqb (direction s) (opposite d)) then set_direction s d else s.

(** [Snek::score] *)
Definition score (s : Snek) : res nat :=
  sub_usize (length (body s)) (start_len s).

Section Slither.

Variable rng : nat -> Z.

(** [Snek::slither(&mut self, food: &mut Point, width, height)]: returns the
    new snek, the new value of [*food], and the generator state. *)
Definition slither (fuel : nat) (s : Snek) (food : Point) (width height : Z)
    (r : nat) : res (Snek * Point * nat) :=
  match last_opt (body s) with
  | None => Panic UnwrapNone
  | Some h =>
      let* nh := point_add h (to_vector (direction s)) in
      let s1 := set_body s (body s ++ [nh]) in
      let* s2 := eat s1 food in
      if negb (eating s2) then
        let* b := remove0 (body s2) in
        Ok (set_body s2 b, food, r)
      else
        let s3 := set_eating s2 false in
        let* (f, r') := rand_point rng fuel width height (body s3) r in
        Ok (s3, f, r')
  end.

End Slither.

(** ** The game (without the console engine) *)

Record Game : Type := mkGame {
  snek : Snek;
  food : Point;
  paused : bool;
  width : Z;
  height : Z
}.

(** [Game::new]; the console engine's initialisation is not modelled. *)
Definition game_new (rng : nat -> Z) (fuel : nat) (w h : Z)
    (starting_body : list Point) (r : nat) : res (Game * nat) :=
  let sn := snek_new starting_body in
  let* (f, r') := rand_point rng fuel w h starting_body r in
  Ok (mkGame sn f false w h, r').

Definition STARTING_BODY : list Point :=
  [point_new 0 0; point_new 1 0; point_new 2 0; point_new 3 0].
Definition WIDTH : Z := 17.
Definition HEIGHT : Z := 15.

(** The invariant of the body: non-empty and at least [start_len] long. *)
Definition snek_inv (sn : Snek) : Prop :=
  body sn <> [] /\ (start_len sn <= length (body sn))%nat.

(** ** Uniform draws over the grid

    To speak about the probability that the rejection sampling of
    [rand_point] is still running after [n] draws, the generator is fed
    the coordinates of a sequence of [n] grid cells (for such raw values
    [fastrand_i32] returns them unchanged); each sequence of cells is one
    equally likely outcome of [n] uniform draws. *)

(** The cells of [0,width) x [0,height). *)
Definition grid_points (w h : Z) : list Point :=
  flat_map (fun i => map (fun j => point_new (Z.of_nat i) (Z.of_nat j))
                         (seq 0 (Z.to_nat h)))
           (seq 0 (Z.to_nat w)).

(** All sequences of [n] elements of [G]. *)
Fixpoint grid_seqs (G : list Point) (n : nat) : list (list Point) :=
  match n with
  | O => [[]]
  | S n' => flat_map (fun g => map (cons g) (grid_seqs G n')) G
  end.

(** The generator whose raw values are the coordinates x0, y0, x1, y1, ...
    of the cells of [l]. *)
Definition stream_of (l : list Point) (i : nat) : Z :=
  match nth_error l (Nat.div2 i) with
  | Some p => if Nat.even i then x p else y p
  | None => 0
  end.

Definition is_diverge {A : Type} (m : res A) : bool :=
  match m with Diverge => true | _ => false end.

(** The sequences of [S k] cells on which [rand_point] (with [k] redraws
    allowed) has not yet returned. *)
Definition rand_point_still_running (w h : Z) (ex : list Point) (k : nat)
    : list (list Point) :=
  filter (fun l => is_diverge (rand_point (stream_of l) k w h ex 0))
         (grid_seqs (grid_points w h) (S k)).

(** ** The game loop, input and rendering

    The console engine is not part of this repository.  Its key queries
    are given per frame as predicates [Keys], and the drawing calls are
    recorded, in order, as a list of commands (the frame). *)

Module GameLoop.

Import Strings.String Strings.Ascii.

(** The [console_engine] key codes the game uses. *)
Inductive KeyCode : Type :=
| Char (c : ascii)
| Esc
| KUp
| KDown
| KLeft
| KRight.

Definition Keys : Type := KeyCode -> bool.

Definition QUIT_KEY : KeyCode := Char "q"%char.
Definition PAUSE_KEY : KeyCode := Esc.
Definition UP_KEY : KeyCode := KUp.
Definition DOWN_KEY : KeyCode := KDown.
Definition LEFT_KEY : KeyCode := KLeft.
Definition RIGHT_KEY : KeyCode := KRight.

Inductive Color : Type := Reset | Black | Red | Green | Blue.

Definition MAP_COLOR : Color := Green.
Definition BORDER_COLOR : Color := Black.
Definition FOOD_COLOR : Color := Red.
Definition SNEK_COLOR : Color := Blue.
Definition HEAD_COLOR : Color := Black.

Definition EYE_CHAR : ascii := "^"%char.
Definition DEAD_EYE_CHAR : ascii := "x"%char.
Definition GAME_PROMPT : string := "SNEK"%string.
Definition PAUSE_PROMPT : string := "PAUSED"%string.
Definition SCORE_PROMPT : string := "SCORE: "%string.


(** [console_engine::pixel::Pixel] with [pxl_bg] and [pxl_fbg]. *)
Record Pixel : Type := mkPixel { fg : Color; bg : Color; chr : ascii }.
Definition pxl_bg (c : ascii) (b : Color) : Pixel := mkPixel Reset b c.
Definition pxl_fbg (c : ascii) (f b : Color) : Pixel := mkPixel f b c.

(** The engine calls of the drawing code. *)
Inductive Cmd : Type :=
| Fill (p : Pixel)
| FillRect (x0 y0 x1 y1 : Z) (p : Pixel)
| PrintFbg (px py : Z) (s : string) (f b : Color)
| SetPxl (px py : Z) (p : Pixel).

(** [a * b] on [i32], panicking on overflow. *)
Definition mul_i32 (a b : Z) : res Z :=
  let r := a * b in
  if (i32_min <=? r) && (r <=? i32_max) then Ok r else Panic Overflow.

(** [a - b] on [u32], panicking on underflow. *)
Definition sub_u32 (a b : Z) : res Z :=
  if b <=? a then Ok (a - b) else Panic Overflow.

(** [usize::to_string]: decimal digits, most significant first. *)
Definition digit_char (d : nat) : ascii := ascii_of_nat (48 + d)%nat.

Fixpoint to_digits (fuel n : nat) : string :=
  match fuel with
  | O => EmptyString
  | S f =>
      if (n <? 10)%nat then String (digit_char n) EmptyString
      else append (to_digits f (n / 10)%nat) (String (digit_char (n mod 10)%nat) EmptyString)
  end.

Definition usize_to_string (n : nat) : string := to_digits (S n) n.

(** The engine is created with [width * 2 + 4] columns and [height + 2] rows. *)
Definition engine_width (g : Game) : Z := width g * 2 + 4.
Definition engine_height (g : Game) : Z := height g + 2.

Definition set_snek (g : Game) (s : Snek) : Game :=
  mkGame s (food g) (paused g) (width g) (height g).
Definition set_food (g : Game) (f : Point) : Game :=
  mkGame (snek g) f (paused g) (width g) (height g).
Definition set_paused (g : Game) (b : bool) : Game :=
  mkGame (snek g) (food g) b (width g) (height g).
Definition set_alive (s : Snek) (a : bool) : Snek :=
  mkSnek (body s) (start_len s) (direction s) (eating s) a.

(** [Game::score] *)
Definition game_score (g : Game) : res nat := score (snek g).

(** [Game::draw_map] *)
Definition draw_map (g : Game) : res (list Cmd) :=
  let* x1 := sub_i32 (as_i32 (engine_width g)) 3 in
  let* y1 := sub_i32 (as_i32 (engine_height g)) 2 in
  Ok [Fill (pxl_bg " "%char BORDER_COLOR); FillRect 2 1 x1 y1 (pxl_bg " "%char MAP_COLOR)].

(** [Game::draw_prompts]; [s.len() as u32] keeps the low 32 bits. *)
Definition draw_prompts (g : Game) : res (list Cmd) :=
  let* sc := game_score g in
  let s := append SCORE_PROMPT (usize_to_string sc) in
  let* mid := sub_u32 (engine_width g / 2) ((Z.of_nat (length s) mod 2 ^ 32) / 2) in
  let* row := sub_i32 (as_i32 (engine_height g)) 1 in
  let prompt := if paused g then PAUSE_PROMPT else GAME_PROMPT in
  let* mid2 := sub_u32 (engine_width g / 2) ((Z.of_nat (length prompt) mod 2 ^ 32) / 2) in
  Ok [PrintFbg (as_i32 mid) row s Reset BORDER_COLOR;
      PrintFbg (as_i32 mid2) 0 prompt Reset BORDER_COLOR].

(** The two terminal cells [(x*2+2, y+1)] and [(x*2+3, y+1)] of a grid cell. *)
Definition cell_pxls (p : Point) (px : Pixel) : res (list Cmd) :=
  let* a := mul_i32 (x p) 2 in
  let* c0 := add_i32 a 2 in
  let* r0 := add_i32 (y p) 1 in
  let* b := mul_i32 (x p) 2 in
  let* c1 := add_i32 b 3 in
  let* r1 := add_i32 (y p) 1 in
  Ok [SetPxl c0 r0 px; SetPxl c1 r1 px].

(** [Game::draw_food] *)
Definition draw_food (g : Game) : res (list Cmd) :=
  cell_pxls (food g) (pxl_bg " "%char FOOD_COLOR).

Fixpoint draw_parts (parts : list Point) : res (list Cmd) :=
  match parts with
  | [] => Ok []
  | part :: rest =>
      let* c := cell_pxls part (pxl_bg " "%char SNEK_COLOR) in
      let* cs := draw_parts rest in
      Ok (c ++ cs)
  end.

(** [Game::draw_snek] *)
Definition draw_snek (g : Game) : res (list Cmd) :=
  let* cs := draw_parts (body (snek g)) in
  match last_opt (body (snek g)) with
  | None => Panic UnwrapNone
  | Some last =>
      let eye := if alive (snek g) then EYE_CHAR else DEAD_EYE_CHAR in
      let* e := cell_pxls last (pxl_fbg eye HEAD_COLOR SNEK_COLOR) in
      Ok (cs ++ e)
  end.

(** [Game::draw] *)
Definition draw (g : Game) : res (list Cmd) :=
  let* m := draw_map g in
  let* p := draw_prompts g in
  let* f := draw_food g in
  let* s := draw_snek g in
  Ok (m ++ p ++ f ++ s).

(** [Game::input]: pause first, then Up, Down, Left, Right. *)
Definition input (g : Game) (keys : Keys) : Game :=
  if keys PAUSE_KEY then set_paused g (negb (paused g))
  else if keys UP_KEY then set_snek g (change_direction (snek g) Up)
  else if keys DOWN_KEY then set_snek g (change_direction (snek g) Down)
  else if keys LEFT_KEY then set_snek g (change_direction (snek g) Left)
  else if keys RIGHT_KEY then set_snek g (change_direction (snek g) Right)
  else g.

Section Loop.

Variable rng : nat -> Z.
Variable fuel : nat.

(** One pass of the body of [Game::main_loop]: [before] are the keys seen
    by the quit test (the previous frame's), [after] those seen by [input]
    (after [wait_frame]).  Returns the game, the frame drawn and the
    generator state. *)
Definition tick (g : Game) (before after : Keys) (r : nat)
    : res (Game * list Cmd * nat) :=
  let* alive' :=
    (if before QUIT_KEY then Ok false
     else let* d := dead (snek g) (width g) (height g) in Ok (negb d)) in
  let g1 := set_snek g (set_alive (snek g) alive') in
  let* frame := draw g1 in
  let g2 := input g1 after in
  if negb (paused g2) then
    let* (sf, r') := slither rng fuel (snek g2) (food g2) (width g2) (height g2) r in
    let (sn', f') := sf in
    Ok (set_food (set_snek g2 sn') f', frame, r')
  else Ok (g2, frame, r).

(** [Game::main_loop], with at most [n] passes; [keys i] are the keys of
    frame [i]. *)
Fixpoint main_loop (n : nat) (keys : nat -> Keys) (i : nat) (g : Game) (r : nat)
    : res (Game * nat) :=
  if alive (snek g) then
    match n with
    | O => Diverge
    | S n' =>
        let* (gf, r') := tick g (keys i) (keys (S i)) r in
        let (g', _) := gf in
        main_loop n' keys (S i) g' r'
    end
  else Ok (g, r).


End Loop.


(** The keys of a frame in which only the up arrow is pressed. *)
Definition up_only (k : KeyCode) : bool :=
  match k with KUp => true | _ => false end.



(** A point at most one cell off the grid. *)
Definition near_grid (w h : Z) (p : Point) : Prop :=
  -1 <= x p <= w /\ -1 <= y p <= h.


End GameLoop.

(** ** Basic facts *)

Lemma point_eqb_spec (p q : Point) : point_eqb p q = true <-> p = q.
Proof.
  destruct p as [px py], q as [qx qy]; unfold point_eqb; simpl.
  rewrite andb_true_iff, !Z.eqb_eq; split.
  - intros [-> ->]; reflexivity.
  - intros H; inversion H; auto.
Qed.

Lemma point_eqb_refl (p : Point) : point_eqb p p = true.
Proof. apply point_eqb_spec; reflexivity. Qed.

Lemma contains_In (l : list Point) (p : Point) : contains l p = true <-> In p l.
Proof.
  unfold contains; rewrite existsb_exists; split.
  - intros [q [Hq Heq]]; apply point_eqb_spec in Heq; subst; exact Hq.
  - intros H; exists p; split; [exact H | apply point_eqb_refl].
Qed.

Lemma contains_false_not_In (l : list Point) (p : Point) :
  contains l p = false <-> ~ In p l.
Proof.
  rewrite <- contains_In; destruct (contains l p); split; congruence.
Qed.

Lemma last_opt_app_single {A : Type} (l : list A) (a : A) :
  last_opt (l ++ [a]) = Some a.
Proof.
  induction l as [| b t IH]; [reflexivity |].
  simpl; destruct (t ++ [a]) eqn:E; [destruct t; discriminate | exact IH].
Qed.


Lemma last_opt_None {A : Type} (l : list A) : last_opt l = None <-> l = [].
Proof.
  induction l as [| b t IH]; [tauto |].
  destruct t; simpl; split; try discriminate.
  intros H; apply IH in H; discriminate.
Qed.

Lemma last_opt_tl_app {A : Type} (l : list A) (a : A) :
  last_opt (tl (l ++ [a])) = Some a \/ tl (l ++ [a]) = [].
Proof.
  destruct l as [| b t]; [right; reflexivity | left; apply last_opt_app_single].
Qed.

Lemma fastrand_i32_range (rng : nat -> Z) (lo hi : Z) (s : nat) v s' :
  fastrand_i32 rng lo hi s = Ok (v, s') -> lo <= v < hi /\ s' = S s.
Proof.
  unfold fastrand_i32; destruct (Z.ltb_spec lo hi); [| discriminate].
  intros Hok; inversion Hok; subst.
  pose proof (Z.mod_pos_bound (rng s) (hi - lo)); lia.
Qed.

Lemma as_i32_pos (w : Z) : 0 <= w < 2 ^ 32 -> 0 < as_i32 w -> as_i32 w = w.
Proof.
  unfold as_i32; destruct (Z.ltb_spec w (2 ^ 31)); [reflexivity | lia].
Qed.

Lemma draw_range (rng : nat -> Z) (w h : Z) (s : nat) p s' :
  draw rng w h s = Ok (p, s') ->
  0 <= x p < as_i32 w /\ 0 <= y p < as_i32 h.
Proof.
  unfold draw.
  destruct (fastrand_i32 rng 0 (as_i32 w) s) as [[px s1] | k |] eqn:E1; try discriminate.
  simpl; destruct (fastrand_i32 rng 0 (as_i32 h) s1) as [[py s2] | k |] eqn:E2;
    try discriminate.
  simpl; intros H; inversion H; subst; simpl.
  apply fastrand_i32_range in E1, E2; lia.
Qed.

Lemma rand_point_loop_ok (rng : nat -> Z) fuel w h ex p s q s' :
  rand_point_loop rng fuel w h ex p s = Ok (q, s') ->
  contains ex q = false /\
  (q = p \/ (0 <= x q < as_i32 w /\ 0 <= y q < as_i32 h)).
Proof.
  revert p s; induction fuel as [| f IH]; intros p s; simpl.
  - destruct (contains ex p) eqn:E; [discriminate |].
    intros H; inversion H; subst; auto.
  - destruct (contains ex p) eqn:E.
    + destruct (draw rng w h s) as [[p1 s1] | k |] eqn:D; try discriminate.
      simpl; intros H; apply IH in H as [Hc [-> | Hr]]; split; auto.
      right; eapply draw_range; eassumption.
    + intros H; inversion H; subst; auto.
Qed.

Lemma rand_point_ok (rng : nat -> Z) fuel w h ex s q s' :
  rand_point rng fuel w h ex s = Ok (q, s') ->
  ~ In q ex /\ 0 <= x q < as_i32 w /\ 0 <= y q < as_i32 h.
Proof.
  unfold rand_point.
  destruct (draw rng w h s) as [[p1 s1] | k |] eqn:D; try discriminate.
  simpl; intros H; apply rand_point_loop_ok in H as [Hc Hr].
  apply contains_false_not_In in Hc; split; [exact Hc |].
  destruct Hr as [-> | Hr]; [eapply draw_range; eassumption | exact Hr].
Qed.

(** The two paths of [slither]. *)
Lemma slither_cases (rng : nat -> Z) fuel sn food w h r sn' f' r' :
  slither rng fuel sn food w h r = Ok (sn', f', r') ->
  exists hd nh,
    last_opt (body sn) = Some hd /\
    point_add hd (to_vector (direction sn)) = Ok nh /\
    start_len sn' = start_len sn /\ direction sn' = direction sn /\
    alive sn' = alive sn /\ eating sn' = false /\
    ((eating sn = false /\ nh <> food /\ body sn' = tl (body sn ++ [nh]) /\
      f' = food /\ r' = r) \/
     ((eating sn = true \/ nh = food) /\ body sn' = body sn ++ [nh] /\
      rand_point rng fuel w h (body sn ++ [nh]) r = Ok (f', r'))).
Proof.
  destruct sn as [b sl d e a]; unfold slither; simpl.
  destruct (last_opt b) as [hd |] eqn:Hl; [| discriminate].
  destruct (point_add hd (to_vector d)) as [nh | k |] eqn:Ha; try discriminate.
  simpl; unfold eat; simpl; rewrite last_opt_app_single.
  destruct (point_eqb nh food) eqn:Hf.
  - apply point_eqb_spec in Hf; subst nh; simpl.
    destruct (rand_point rng fuel w h (b ++ [food]) r) as [[f r0] | k |] eqn:Hr;
      try discriminate.
    simpl; intros H; inversion H; subst; clear H.
    exists hd, food; simpl; do 6 (split; [reflexivity || assumption |]).
    right; split; [right; reflexivity | split; [reflexivity | exact Hr]].
  - assert (Hne : nh <> food) by (intros ->; rewrite point_eqb_refl in Hf; discriminate).
    destruct e; simpl.
    + destruct (rand_point rng fuel w h (b ++ [nh]) r) as [[f r0] | k |] eqn:Hr;
        try discriminate.
      simpl; intros H; inversion H; subst; clear H.
      exists hd, nh; simpl; do 6 (split; [reflexivity || assumption |]).
      right; split; [left; reflexivity | split; [reflexivity | exact Hr]].
    + destruct (b ++ [nh]) as [| b0 bs] eqn:Hb; simpl; [discriminate |].
      intros H; inversion H; subst; clear H.
      exists hd, nh; simpl; do 6 (split; [reflexivity || assumption |]).
      left; rewrite Hb; repeat split; auto.
Qed.

Lemma slither_last (rng : nat -> Z) fuel sn food w h r sn' f' r' hd :
  last_opt (body sn) = Some hd ->
  slither rng fuel sn food w h r = Ok (sn', f', r') ->
  exists nh, point_add hd (to_vector (direction sn)) = Ok nh /\
             last_opt (body sn') = Some nh.
Proof.
  intros Hl H; apply slither_cases in H
    as (hd' & nh & Hl' & Ha & _ & _ & _ & _ & Hcase).
  rewrite Hl in Hl'; inversion Hl'; subst hd'.
  exists nh; split; [exact Ha |].
  destruct Hcase as [(_ & _ & -> & _ & _) | (_ & -> & _)];
    [| apply last_opt_app_single].
  destruct (body sn) as [| b t]; [discriminate |].
  apply last_opt_app_single.
Qed.

Lemma hd_error_app {A : Type} (l l' : list A) :
  l <> [] -> hd_error (l ++ l') = hd_error l.
Proof. destruct l; [congruence | reflexivity]. Qed.

Lemma sub_i32_small (a : Z) : 0 < a < 2 ^ 31 -> sub_i32 a 1 = Ok (a - 1).
Proof.
  intros Ha; unfold sub_i32, i32_min, i32_max.
  destruct (Z.leb_spec (- 2 ^ 31) (a - 1)); [| lia].
  destruct (Z.leb_spec (a - 1) (2 ^ 31 - 1)); [reflexivity | lia].
Qed.

Lemma as_i32_small (w : Z) : 0 <= w < 2 ^ 31 -> as_i32 w = w.
Proof. unfold as_i32; destruct (Z.ltb_spec w (2 ^ 31)); lia. Qed.

(** ** C1: a move without eating *)

(** C1 (as stated, refuted): a snek whose [eating] flag is already set
    when [slither] is called keeps its tail and gets a new food point even
    though the new head (1,0) is not on the food (5,5). *)
Lemma C1_slither_no_eat_counterexample :
  ~ (forall sn' f' r',
       slither (fun _ => 3) 0 (mkSnek [point_new 0 0] 1 Right true true)
         (point_new 5 5) WIDTH HEIGHT 0 = Ok (sn', f', r') ->
       length (body sn') = 1%nat /\ f' = point_new 5 5).
Proof.
  intros H.
  destruct (H (mkSnek [point_new 0 0; point_new 1 0] 1 Right false true)
              (point_new 3 3) 2%nat eq_refl) as [Hl _].
  discriminate.
Qed.

(** C1 (amended): for a snek with a non-empty body whose [eating] flag is
    false (the case of every snek built by [Snek::new] and moved by
    [slither]), if the new head [old head + direction vector] is not the
    food, one [slither] call returns with the body length unchanged, the
    new head as last element, the oldest element dropped, and the food
    and generator untouched. *)
Theorem slither_no_eat (rng : nat -> Z) fuel sn food w h r hd nh :
  last_opt (body sn) = Some hd ->
  eating sn = false ->
  point_add hd (to_vector (direction sn)) = Ok nh ->
  nh <> food ->
  exists sn',
    slither rng fuel sn food w h r = Ok (sn', food, r) /\
    length (body sn') = length (body sn) /\
    last_opt (body sn') = Some nh /\
    body sn' = tl (body sn) ++ [nh].
Proof.
  destruct sn as [b sl d e a]; simpl; intros Hl He Ha Hne; subst e.
  unfold slither; simpl; rewrite Hl, Ha; simpl.
  unfold eat; simpl; rewrite last_opt_app_single.
  destruct (point_eqb nh food) eqn:Hf;
    [apply point_eqb_spec in Hf; contradiction |].
  simpl.
  destruct b as [| b0 bs]; [discriminate |]; simpl.
  eexists; split; [reflexivity |]; simpl.
  rewrite length_app; simpl; split; [lia |].
  split; [apply last_opt_app_single | reflexivity].
Qed.

(** ** C2: a move onto the food *)

(** C2: if the new head [old head + direction vector] is the food, a
    [slither] call that returns has grown the body by one (the old body
    followed by the new head, so the old tail is kept), cleared [eating],
    and replaced the food by a point that is not on the grown body. *)
Theorem slither_eat (rng : nat -> Z) fuel sn food w h r hd sn' f' r' :
  last_opt (body sn) = Some hd ->
  point_add hd (to_vector (direction sn)) = Ok food ->
  slither rng fuel sn food w h r = Ok (sn', f', r') ->
  length (body sn') = S (length (body sn)) /\
  body sn' = body sn ++ [food] /\
  hd_error (body sn') = hd_error (body sn) /\
  eating sn' = false /\
  ~ In f' (body sn').
Proof.
  intros Hl Ha H; apply slither_cases in H
    as (hd' & nh & Hl' & Ha' & _ & _ & _ & He & Hcase).
  rewrite Hl in Hl'; inversion Hl'; subst hd'.
  rewrite Ha in Ha'; inversion Ha'; subst nh.
  destruct Hcase as [(_ & Hne & _) | (_ & Hb & Hr)]; [congruence |].
  apply rand_point_ok in Hr as [Hn _].
  assert (Hne : body sn <> []) by (intros E; rewrite E in Hl; discriminate).
  rewrite Hb; repeat split; auto.
  - rewrite length_app; simpl; lia.
  - apply hd_error_app; exact Hne.
Qed.

Lemma slither_eat_witness :
  last_opt (body (snek_new STARTING_BODY)) = Some (point_new 3 0) /\
  point_add (point_new 3 0) (to_vector (direction (snek_new STARTING_BODY)))
    = Ok (point_new 4 0) /\
  slither (fun _ => 2) 0 (snek_new STARTING_BODY) (point_new 4 0) 5 5 0
    = Ok (mkSnek (STARTING_BODY ++ [point_new 4 0]) 4 Right false true,
          point_new 2 2, 2%nat) /\
  length (body (mkSnek (STARTING_BODY ++ [point_new 4 0]) 4 Right false true))
    = S (length (body (snek_new STARTING_BODY))).
Proof.
  split; [reflexivity |]. split; [reflexivity |]. split; [reflexivity |].
  apply (slither_eat (fun _ => 2) 0 (snek_new STARTING_BODY) (point_new 4 0) 5 5 0
           (point_new 3 0) _ (point_new 2 2) 2%nat); reflexivity.
Defined.

Lemma slither_no_eat_witness :
  exists sn',
    slither (fun _ => 0) 0 (snek_new STARTING_BODY) (point_new 7 7) WIDTH HEIGHT 0
      = Ok (sn', point_new 7 7, 0%nat) /\
    length (body sn') = length STARTING_BODY /\
    last_opt (body sn') = Some (point_new 4 0) /\
    body sn' = tl STARTING_BODY ++ [point_new 4 0].
Proof.
  apply (slither_no_eat (fun _ => 0) 0 (snek_new STARTING_BODY) (point_new 7 7)
           WIDTH HEIGHT 0 (point_new 3 0) (point_new 4 0));
    [reflexivity | reflexivity | reflexivity | discriminate].
Defined.

(** ** C3: the death test *)

(** C3 (as stated, refuted): [width as i32] reinterprets a [u32] width of
    3000000000 as a negative number, so [dead] reports a collision for a
    one-cell snek at (0,0), which is inside the grid and touches nothing. *)
Lemma C3_dead_counterexample :
  dead (mkSnek [point_new 0 0] 1 Right false true) 3000000000 15 = Ok true /\
  0 <= x (point_new 0 0) < 3000000000 /\ 0 <= y (point_new 0 0) < 15 /\
  ~ In (point_new 0 0) (removelast [point_new 0 0]).
Proof.
  split; [reflexivity |]. split; [simpl; lia |]. split; [simpl; lia |].
  simpl; tauto.
Qed.

(** C3 (amended): for grid dimensions in [1, 2^31) (so that [as i32] keeps
    them) and a non-empty body, [dead] returns without panicking, and it
    returns true iff the head is outside [0,width) x [0,height) or equals
    an element of the body other than the last one. *)
Theorem dead_spec sn w h hd :
  0 < w < 2 ^ 31 -> 0 < h < 2 ^ 31 ->
  last_opt (body sn) = Some hd ->
  exists b, dead sn w h = Ok b /\
    (b = true <-> (x hd < 0 \/ w <= x hd \/ y hd < 0 \/ h <= y hd \/
                   In hd (removelast (body sn)))).
Proof.
  intros Hw Hh Hl; unfold dead; rewrite Hl.
  destruct (contains (removelast (body sn)) hd) eqn:Hc.
  { exists true; split; [reflexivity |]; apply contains_In in Hc; tauto. }
  apply contains_false_not_In in Hc.
  destruct (Z.ltb_spec (x hd) 0).
  { exists true; split; [reflexivity | tauto]. }
  destruct (Z.ltb_spec (y hd) 0).
  { exists true; split; [reflexivity | tauto]. }
  rewrite (as_i32_small w) by lia; rewrite sub_i32_small by lia; simpl.
  destruct (Z.ltb_spec (w - 1) (x hd)).
  { exists true; split; [reflexivity | lia]. }
  rewrite (as_i32_small h) by lia; rewrite sub_i32_small by lia; simpl.
  destruct (Z.ltb_spec (h - 1) (y hd)).
  - exists true; split; [reflexivity | lia].
  - exists false; split; [reflexivity |].
    split; [discriminate |]; intros [? | [? | [? | [? | ?]]]]; try lia; tauto.
Qed.

Lemma dead_spec_witness :
  exists b,
    dead (mkSnek [point_new 2 2; point_new 2 1; point_new 2 0; point_new 3 0;
                  point_new 2 2] 4 Up false true) 5 5 = Ok b /\
    (b = true <-> (2 < 0 \/ 5 <= 2 \/ 2 < 0 \/ 5 <= 2 \/
       In (point_new 2 2)
         (removelast [point_new 2 2; point_new 2 1; point_new 2 0; point_new 3 0;
                      point_new 2 2]))).
Proof.
  apply (dead_spec (mkSnek [point_new 2 2; point_new 2 1; point_new 2 0;
                            point_new 3 0; point_new 2 2] 4 Up false true)
           5 5 (point_new 2 2)); [lia | lia | reflexivity].
Defined.

Lemma point_add_ok p v q :
  point_add p v = Ok q -> q = point_new (x p + vx v) (y p + vy v).
Proof.
  unfold point_add, add_i32.
  destruct ((i32_min <=? x p + vx v) && (x p + vx v <=? i32_max)); [| discriminate].
  simpl.
  destruct ((i32_min <=? y p + vy v) && (y p + vy v <=? i32_max)); [| discriminate].
  intros H; inversion H; reflexivity.
Qed.

(** ** C4: turning *)

(** C4: [change_direction d] sets the direction to [d] unless [d] is the
    opposite of the current direction, in which case nothing changes; in
    particular a snek moving [Right] keeps moving right after a request
    for [Left]: the next [slither] puts the head one cell to the right. *)
Theorem change_direction_spec sn d :
  change_direction sn d =
    (if direction_eqb d (opposite (direction sn)) then sn else set_direction sn d) /\
  direction (change_direction sn d) =
    (if direction_eqb d (opposite (direction sn)) then direction sn else d) /\
  (direction sn = Right ->
   direction (change_direction sn Left) = Right /\
   forall rng fuel food w h r hd sn' f' r',
     last_opt (body sn) = Some hd ->
     slither rng fuel (change_direction sn Left) food w h r = Ok (sn', f', r') ->
     last_opt (body sn') = Some (point_new (x hd + 1) (y hd))).
Proof.
  split; [| split].
  - destruct sn as [b sl dd e a]; unfold change_direction; simpl.
    destruct dd, d; reflexivity.
  - destruct sn as [b sl dd e a]; unfold change_direction; simpl.
    destruct dd, d; reflexivity.
  - intros Hr.
    assert (Hc : change_direction sn Left = sn)
      by (unfold change_direction; rewrite Hr; reflexivity).
    rewrite Hc, Hr; split; [reflexivity |].
    intros rng fuel food w h r hd sn' f' r' Hl Hs.
    destruct (slither_last rng fuel sn food w h r sn' f' r' hd Hl Hs)
      as (nh & Ha & Hl').
    apply point_add_ok in Ha; rewrite Hr in Ha; simpl in Ha.
    rewrite Hl', Ha, Z.add_0_r; reflexivity.
Qed.

(** ** Panic sources *)

Lemma point_add_panic p v k : point_add p v = Panic k -> k = Overflow.
Proof.
  unfold point_add, add_i32.
  destruct ((i32_min <=? x p + vx v) && (x p + vx v <=? i32_max));
    [| intros H; inversion H; reflexivity].
  simpl.
  destruct ((i32_min <=? y p + vy v) && (y p + vy v <=? i32_max));
    intros H; inversion H; reflexivity.
Qed.

Lemma draw_panic rng w h s k : draw rng w h s = Panic k -> k = EmptyRange.
Proof.
  unfold draw, fastrand_i32.
  destruct (0 <? as_i32 w); [| intros H; inversion H; reflexivity].
  simpl; destruct (0 <? as_i32 h); intros H; inversion H; reflexivity.
Qed.

Lemma rand_point_panic rng fuel w h ex s k :
  rand_point rng fuel w h ex s = Panic k -> k = EmptyRange.
Proof.
  unfold rand_point.
  destruct (draw rng w h s) as [[p s1] | k' |] eqn:D; simpl;
    [| intros H; inversion H; subst; eapply draw_panic; eassumption | discriminate].
  clear D; revert p s1; induction fuel as [| f IH]; intros p s1; simpl.
  - destruct (contains ex p); discriminate.
  - destruct (contains ex p); [| discriminate].
    destruct (draw rng w h s1) as [[p2 s2] | k' |] eqn:D2; simpl;
      [apply IH | | discriminate].
    intros H; inversion H; subst; eapply draw_panic; eassumption.
Qed.

(** On a non-empty body the only panics of [slither] are an [i32]
    overflow of the new head and an empty [fastrand] range. *)
Lemma slither_panic rng fuel sn food w h r k :
  body sn <> [] ->
  slither rng fuel sn food w h r = Panic k -> k = Overflow \/ k = EmptyRange.
Proof.
  destruct sn as [b sl d e a]; simpl; intros Hne; unfold slither; simpl.
  destruct (last_opt b) eqn:Hl; [| apply last_opt_None in Hl; contradiction].
  destruct (point_add p (to_vector d)) as [nh | k' |] eqn:Ha; simpl;
    [| intros H; inversion H; subst; left; eapply point_add_panic; eassumption
     | discriminate].
  unfold eat; simpl; rewrite last_opt_app_single.
  destruct (point_eqb nh food); simpl;
    [| destruct e; simpl;
       [| destruct (b ++ [nh]) eqn:Hb; [destruct b; discriminate | discriminate]]];
    destruct (rand_point rng fuel w h (b ++ [nh]) r) as [[f r0] | k' |] eqn:Hr;
    simpl; try discriminate;
    intros H; inversion H; subst; right; eapply rand_point_panic; eassumption.
Qed.

Lemma In_tl_app (l : list Point) (a p : Point) :
  In p (tl (l ++ [a])) -> In p l \/ p = a.
Proof.
  destruct l as [| b t]; simpl; [tauto |].
  intros H; apply in_app_or in H as [H | [H | []]]; [left; right; exact H | right; auto].
Qed.

(** ** C5: the food is never on the body *)

(** C5: the food placed by [Game::new] is not on the starting body, and a
    [slither] call that returns keeps the food off the body when it was
    off the body before. *)
Theorem food_not_on_body :
  (forall rng fuel w h starting_body r g r',
     game_new rng fuel w h starting_body r = Ok (g, r') ->
     ~ In (food g) (body (snek g))) /\
  (forall rng fuel sn food w h r sn' f' r',
     ~ In food (body sn) ->
     slither rng fuel sn food w h r = Ok (sn', f', r') ->
     ~ In f' (body sn')).
Proof.
  split.
  - intros rng fuel w h sb r g r'; unfold game_new.
    destruct (rand_point rng fuel w h sb r) as [[f r0] | k |] eqn:Hr;
      simpl; try discriminate.
    intros H; inversion H; subst; simpl.
    apply rand_point_ok in Hr; tauto.
  - intros rng fuel sn food w h r sn' f' r' Hn H.
    apply slither_cases in H as (hd & nh & _ & _ & _ & _ & _ & _ & Hcase).
    destruct Hcase as [(_ & Hne & Hb & -> & _) | (_ & Hb & Hr)].
    + rewrite Hb; intros Hin; apply In_tl_app in Hin as [Hin | Hin];
        [contradiction | congruence].
    + rewrite Hb; apply rand_point_ok in Hr; tauto.
Qed.

(** ** C6: the body invariant and the absence of panics *)

(** C6: on a snek whose body is non-empty and at least [start_len] long,
    [slither] never panics on a head [unwrap] or on [remove(0)] and keeps
    the invariant when it returns; [dead] never panics on its [unwrap];
    [change_direction] and [eat] keep the invariant, [eat] without
    panicking; and [score] returns without an underflow. *)
Theorem snek_ops_safe sn :
  snek_inv sn ->
  (forall rng fuel food w h r,
     slither rng fuel sn food w h r <> Panic UnwrapNone /\
     slither rng fuel sn food w h r <> Panic RemoveOOB /\
     forall sn' f' r', slither rng fuel sn food w h r = Ok (sn', f', r') ->
                       snek_inv sn') /\
  (forall w h, dead sn w h <> Panic UnwrapNone) /\
  (forall d, snek_inv (change_direction sn d)) /\
  (forall f, exists sn', eat sn f = Ok sn' /\ snek_inv sn') /\
  score sn = Ok (length (body sn) - start_len sn)%nat.
Proof.
  intros [Hne Hle].
  assert (Hl : exists hd, last_opt (body sn) = Some hd)
    by (destruct (last_opt (body sn)) eqn:E; [eauto | apply last_opt_None in E; contradiction]).
  destruct Hl as [hd Hl].
  split; [| split; [| split; [| split]]].
  - intros rng fuel food w h r; split; [| split].
    + intros H; apply slither_panic in H as [H | H]; [discriminate | discriminate | exact Hne].
    + intros H; apply slither_panic in H as [H | H]; [discriminate | discriminate | exact Hne].
    + intros sn' f' r' H.
      apply slither_cases in H as (hd' & nh & _ & _ & Hsl & _ & _ & _ & Hcase).
      destruct Hcase as [(_ & _ & Hb & _ & _) | (_ & Hb & _)]; unfold snek_inv;
        rewrite Hb, Hsl.
      * destruct (body sn) as [| b0 bs]; [contradiction |]; simpl in *.
        split; [destruct bs; discriminate |]; rewrite length_app; simpl; lia.
      * split; [destruct (body sn); discriminate |]; rewrite length_app; simpl; lia.
  - intros w h; unfold dead; rewrite Hl.
    destruct (contains (removelast (body sn)) hd); [discriminate |].
    destruct (x hd <? 0); [discriminate |]. destruct (y hd <? 0); [discriminate |].
    destruct (sub_i32 (as_i32 w) 1) as [wm | k |] eqn:E; simpl; try discriminate.
    + destruct (wm <? x hd); [discriminate |].
      destruct (sub_i32 (as_i32 h) 1) as [hm | k |] eqn:E2; simpl; try discriminate.
      unfold sub_i32 in E2; destruct (_ && _); inversion E2; discriminate.
    + unfold sub_i32 in E; destruct (_ && _); inversion E; discriminate.
  - intros d; unfold change_direction; destruct (negb _); split; assumption.
  - intros f; unfold eat; rewrite Hl.
    destruct (point_eqb hd f); eexists; (split; [reflexivity | split; assumption]).
  - unfold score, sub_usize; destruct (Nat.leb_spec (start_len sn) (length (body sn)));
      [reflexivity | lia].
Qed.

Lemma snek_ops_safe_witness :
  snek_inv (snek_new STARTING_BODY) /\
  score (snek_new STARTING_BODY) = Ok 0%nat.
Proof.
  assert (Hi : snek_inv (snek_new STARTING_BODY))
    by (split; [discriminate | simpl; lia]).
  split; [exact Hi |].
  destruct (snek_ops_safe (snek_new STARTING_BODY) Hi) as (_ & _ & _ & _ & Hs).
  exact Hs.
Defined.

(** ** C7: the score *)

(** C7: on a snek whose body is at least [start_len] long, [score] returns
    [length body - start_len] (a [usize], so at least 0) without
    underflow, and a snek fresh from [Snek::new] scores 0. *)
Theorem score_spec sn starting_body :
  (start_len sn <= length (body sn))%nat ->
  score sn = Ok (length (body sn) - start_len sn)%nat /\
  (0 <= length (body sn) - start_len sn)%nat /\
  score (snek_new starting_body) = Ok 0%nat.
Proof.
  intros Hle; unfold score, sub_usize; simpl.
  destruct (Nat.leb_spec (start_len sn) (length (body sn))); [| lia].
  rewrite Nat.leb_refl, Nat.sub_diag; repeat split; lia.
Qed.

Lemma score_spec_witness :
  score (mkSnek (STARTING_BODY ++ [point_new 4 0]) 4 Right false true) = Ok 1%nat /\
  score (snek_new STARTING_BODY) = Ok 0%nat.
Proof.
  destruct (score_spec (mkSnek (STARTING_BODY ++ [point_new 4 0]) 4 Right false true)
              STARTING_BODY) as (H1 & _ & H2); [simpl; lia |].
  split; [exact H1 | exact H2].
Defined.

(** ** C8: [rand_point] returns a free cell of the grid *)

(** C8: for [u32] dimensions [width, height > 0], a point returned by
    [rand_point] is not in [exclude] and lies in [0,width) x [0,height). *)
Theorem rand_point_spec rng fuel w h ex s p s' :
  0 < w < 2 ^ 32 -> 0 < h < 2 ^ 32 ->
  rand_point rng fuel w h ex s = Ok (p, s') ->
  ~ In p ex /\ 0 <= x p < w /\ 0 <= y p < h.
Proof.
  intros Hw Hh H; apply rand_point_ok in H as (Hn & Hx & Hy).
  rewrite as_i32_pos in Hx by lia; rewrite as_i32_pos in Hy by lia.
  auto.
Qed.

Lemma rand_point_spec_witness :
  rand_point (fun n => Z.of_nat n) 5 3 3 STARTING_BODY 0 = Ok (point_new 0 1, 2%nat) /\
  ~ In (point_new 0 1) STARTING_BODY /\ 0 <= 0 < 3 /\ 0 <= 1 < 3.
Proof.
  split; [reflexivity |].
  exact (rand_point_spec (fun n => Z.of_nat n) 5 3 3 STARTING_BODY 0
           (point_new 0 1) 2%nat ltac:(lia) ltac:(lia) eq_refl).
Defined.

(** ** C10: what [slither] touches *)

(** C10: a [slither] call that returns leaves [direction], [start_len] and
    [alive] as they were (it changes only the body, [eating] and the food),
    and an [eating] flag that was false at entry is false on return. *)
Theorem slither_frame rng fuel sn food w h r sn' f' r' :
  slither rng fuel sn food w h r = Ok (sn', f', r') ->
  sn' = mkSnek (body sn') (start_len sn) (direction sn) (eating sn') (alive sn) /\
  direction sn' = direction sn /\ start_len sn' = start_len sn /\
  alive sn' = alive sn /\
  (eating sn = false -> eating sn' = false).
Proof.
  intros H; apply slither_cases in H
    as (hd & nh & _ & _ & Hsl & Hd & Ha & He & _).
  destruct sn' as [b' sl' d' e' a']; simpl in *; subst.
  repeat split; auto.
Qed.

Lemma slither_frame_witness :
  slither (fun _ => 0) 0 (snek_new STARTING_BODY) (point_new 9 9) WIDTH HEIGHT 0
    = Ok (mkSnek (tl STARTING_BODY ++ [point_new 4 0]) 4 Right false true,
          point_new 9 9, 0%nat) /\
  direction (mkSnek (tl STARTING_BODY ++ [point_new 4 0]) 4 Right false true) = Right.
Proof.
  split; [reflexivity |].
  destruct (slither_frame (fun _ => 0) 0 (snek_new STARTING_BODY) (point_new 9 9)
              WIDTH HEIGHT 0 (mkSnek (tl STARTING_BODY ++ [point_new 4 0]) 4 Right
                              false true) (point_new 9 9) 0%nat eq_refl)
    as (_ & Hd & _).
  exact Hd.
Defined.

(** ** C9: the rejection-sampling loop *)

Lemma draw_in_grid rng w h s :
  0 < w < 2 ^ 31 -> 0 < h < 2 ^ 31 ->
  exists p, draw rng w h s = Ok (p, S (S s)) /\ 0 <= x p < w /\ 0 <= y p < h.
Proof.
  intros Hw Hh; unfold draw, fastrand_i32.
  rewrite (as_i32_small w), (as_i32_small h) by lia.
  destruct (Z.ltb_spec 0 w); [| lia]; destruct (Z.ltb_spec 0 h); [| lia]; simpl.
  eexists; split; [reflexivity |]; simpl.
  pose proof (Z.mod_pos_bound (rng s) (w - 0)); pose proof (Z.mod_pos_bound (rng (S s)) (h - 0)).
  lia.
Qed.

Lemma rand_point_loop_full rng fuel w h ex p s :
  0 < w < 2 ^ 31 -> 0 < h < 2 ^ 31 ->
  (forall q, 0 <= x q < w -> 0 <= y q < h -> In q ex) ->
  0 <= x p < w -> 0 <= y p < h ->
  rand_point_loop rng fuel w h ex p s = Diverge.
Proof.
  intros Hw Hh Hfull; revert p s; induction fuel as [| f IH]; intros p s Hx Hy; simpl;
    assert (Hc : contains ex p = true) by (apply contains_In; auto); rewrite Hc;
    [reflexivity |].
  destruct (draw_in_grid rng w h s Hw Hh) as (q & -> & Hqx & Hqy); simpl.
  apply IH; assumption.
Qed.

(** C9 (as stated, refuted): for an empty grid (width 0) every grid point
    is (vacuously) excluded, yet [rand_point] does not spin: it panics at
    once on the empty range [0..0]. *)
Lemma C9_rand_point_counterexample :
  (forall q, 0 <= x q < 0 -> 0 <= y q < 1 -> In q []) /\
  (forall rng fuel s, rand_point rng fuel 0 1 [] s = Panic EmptyRange).
Proof.
  split; [intros q Hq; lia | reflexivity].
Qed.

Lemma grid_points_In w h p :
  In p (grid_points w h) <-> 0 <= x p < w /\ 0 <= y p < h.
Proof.
  unfold grid_points; rewrite in_flat_map; split.
  - intros (i & Hi & Hp); apply in_map_iff in Hp as (j & <- & Hj).
    apply in_seq in Hi, Hj; simpl; lia.
  - destruct p as [px py]; simpl; intros [Hx Hy].
    exists (Z.to_nat px); split; [apply in_seq; lia |].
    apply in_map_iff; exists (Z.to_nat py); split; [| apply in_seq; lia].
    rewrite !Z2Nat.id by lia; reflexivity.
Qed.

Lemma length_flat_map_cons (G : list Point) (S0 : list (list Point)) :
  length (flat_map (fun g => map (cons g) S0) G) = (length G * length S0)%nat.
Proof.
  induction G as [| g G IH]; [reflexivity |].
  simpl; rewrite length_app, length_map, IH; reflexivity.
Qed.

Lemma length_grid_points w h :
  length (grid_points w h) = (Z.to_nat w * Z.to_nat h)%nat.
Proof.
  unfold grid_points; generalize (Z.to_nat h) as nh; intros nh.
  induction (Z.to_nat w) as [| n IH]; [reflexivity |].
  rewrite seq_S, flat_map_app, length_app, IH; simpl.
  rewrite length_app, length_map, length_seq; simpl; lia.
Qed.

Lemma length_grid_seqs G n : length (grid_seqs G n) = (length G ^ n)%nat.
Proof.
  induction n as [| n IH]; [reflexivity |].
  simpl; rewrite length_flat_map_cons, IH; reflexivity.
Qed.

Lemma grid_seqs_In G n l :
  In l (grid_seqs G n) -> length l = n /\ forall q, In q l -> In q G.
Proof.
  revert l; induction n as [| n IH]; intros l; simpl.
  - intros [<- | []]; split; [reflexivity | intros q []].
  - rewrite in_flat_map; intros (g & Hg & Hl); apply in_map_iff in Hl as (t & <- & Ht).
    apply IH in Ht as [Hlen Hin]; simpl; split; [lia |].
    intros q [<- | Hq]; auto.
Qed.

Lemma filter_forallb_map_cons (P : Point -> bool) g (S0 : list (list Point)) :
  filter (forallb P) (map (cons g) S0) =
  if P g then map (cons g) (filter (forallb P) S0) else [].
Proof.
  induction S0 as [| l S0 IH]; simpl; [destruct (P g); reflexivity |].
  destruct (P g) eqn:E; simpl; rewrite IH; [| reflexivity].
  destruct (forallb P l); reflexivity.
Qed.

(** Among the sequences of [n] cells of [G], those made only of cells
    satisfying [P] number [(#P)^n]. *)
Lemma count_forallb_grid_seqs (P : Point -> bool) G n :
  length (filter (forallb P) (grid_seqs G n)) = (length (filter P G) ^ n)%nat.
Proof.
  assert (Hstep : forall S0 G',
    length (filter (forallb P) (flat_map (fun g => map (cons g) S0) G')) =
    (length (filter P G') * length (filter (forallb P) S0))%nat).
  { intros S0 G'; induction G' as [| g G' IHG]; [reflexivity |].
    simpl; rewrite filter_app, length_app, filter_forallb_map_cons, IHG.
    destruct (P g); simpl; [rewrite length_map |]; lia. }
  induction n as [| n IH]; [reflexivity |].
  simpl; rewrite Hstep, IH; reflexivity.
Qed.

Lemma filter_length_lt (f : Point -> bool) G p :
  In p G -> f p = false -> (length (filter f G) < length G)%nat.
Proof.
  induction G as [| g G IH]; [intros [] |].
  intros [<- | Hp] Hf; simpl.
  - rewrite Hf; pose proof (filter_length_le f G); lia.
  - destruct (f g); simpl; specialize (IH Hp Hf); lia.
Qed.

Lemma div2_double j : Nat.div2 (2 * j) = j /\ Nat.div2 (S (2 * j)) = j.
Proof.
  induction j as [| j IH]; [split; reflexivity |].
  replace (2 * S j)%nat with (S (S (2 * j))) by lia.
  destruct IH as [H1 H2]; split;
    [change (S (Nat.div2 (2 * j)) = S j) | change (S (Nat.div2 (S (2 * j))) = S j)]; lia.
Qed.

Lemma even_double j : Nat.even (2 * j) = true /\ Nat.even (S (2 * j)) = false.
Proof.
  induction j as [| j IH]; [split; reflexivity |].
  replace (2 * S j)%nat with (S (S (2 * j))) by lia.
  destruct IH as [H1 H2]; split; [exact H1 |].
  change (Nat.even (S (S (S (2 * j))))) with (Nat.even (S (2 * j))); exact H2.
Qed.

(** On the generator [stream_of L], draw number [j] is the cell [L_j]. *)
Lemma draw_stream_of w h L j p :
  0 < w < 2 ^ 31 -> 0 < h < 2 ^ 31 ->
  nth_error L j = Some p -> 0 <= x p < w -> 0 <= y p < h ->
  draw (stream_of L) w h (2 * j) = Ok (p, (2 * S j)%nat).
Proof.
  intros Hw Hh Hn Hx Hy.
  destruct (div2_double j) as [D1 D2]; destruct (even_double j) as [E1 E2].
  replace (2 * S j)%nat with (S (S (2 * j))) by lia.
  remember (2 * j)%nat as j2 eqn:Hj2; clear Hj2.
  unfold draw, fastrand_i32.
  rewrite (as_i32_small w), (as_i32_small h) by lia.
  destruct (Z.ltb_spec 0 w); [| lia]; destruct (Z.ltb_spec 0 h); [| lia]; simpl.
  unfold stream_of; rewrite D1, E1, D2, E2, Hn, !Z.sub_0_r, !Z.mod_small by lia.
  destruct p; reflexivity.
Qed.

Lemma skipn_nth_error (L : list Point) j q :
  nth_error L j = Some q -> skipn j L = q :: skipn (S j) L.
Proof.
  revert j; induction L as [| a L IH]; intros [| j]; simpl; try discriminate.
  - intros H; inversion H; reflexivity.
  - apply IH.
Qed.

Lemma rand_point_loop_stream_of w h ex L f j p :
  0 < w < 2 ^ 31 -> 0 < h < 2 ^ 31 ->
  (forall q, In q L -> 0 <= x q < w /\ 0 <= y q < h) ->
  length L = (j + f)%nat ->
  (rand_point_loop (stream_of L) f w h ex p (2 * j) = Diverge <->
   contains ex p = true /\ forallb (contains ex) (skipn j L) = true).
Proof.
  intros Hw Hh Hgrid; revert j p; induction f as [| f IH]; intros j p Hlen; cbn [rand_point_loop].
  - rewrite skipn_all2 by lia; simpl.
    destruct (contains ex p); intuition congruence.
  - destruct (contains ex p) eqn:Hc; [| split; [discriminate | intros [H _]; discriminate]].
    destruct (nth_error L j) as [q |] eqn:Hq;
      [| apply nth_error_None in Hq; lia].
    destruct (Hgrid q (nth_error_In L j Hq)) as [Hqx Hqy].
    rewrite (draw_stream_of w h L j q Hw Hh Hq Hqx Hqy); simpl.
    rewrite (IH (S j) q) by lia.
    rewrite (skipn_nth_error L j q Hq); simpl; rewrite andb_true_iff; tauto.
Qed.

(** On the generator fed with [S k] grid cells, [rand_point] allowed [k]
    redraws is still running exactly when all [S k] cells are excluded. *)
Lemma rand_point_stream_of w h ex L k :
  0 < w < 2 ^ 31 -> 0 < h < 2 ^ 31 ->
  (forall q, In q L -> 0 <= x q < w /\ 0 <= y q < h) ->
  length L = S k ->
  (rand_point (stream_of L) k w h ex 0 = Diverge <-> forallb (contains ex) L = true).
Proof.
  intros Hw Hh Hgrid Hlen.
  destruct L as [| q L]; [discriminate |].
  destruct (Hgrid q (or_introl eq_refl)) as [Hqx Hqy].
  unfold rand_point.
  pose proof (draw_stream_of w h (q :: L) 0 q Hw Hh eq_refl Hqx Hqy) as D.
  change (2 * 0)%nat with 0%nat in D; change (2 * 1)%nat with 2%nat in D.
  rewrite D; simpl bind.
  pose proof (rand_point_loop_stream_of w h ex (q :: L) k 1 q Hw Hh Hgrid) as E.
  change (2 * 1)%nat with 2%nat in E; rewrite E by (simpl in *; lia).
  simpl; rewrite andb_true_iff; tauto.
Qed.

(** (1 + 1/m)^k >= 1 + k/m, in whole numbers. *)
Lemma bernoulli_nat m k : (m ^ k * (m + k) <= (m + 1) ^ k * m)%nat.
Proof.
  induction k as [| k IH]; [simpl; lia |].
  rewrite !Nat.pow_succ_r'.
  assert (((m + 1) ^ k * m * (m + 1)) >= m ^ k * (m + k) * (m + 1))%nat
    by (apply Nat.mul_le_mono_r; exact IH).
  nia.
Qed.

Lemma geometric_small m N d :
  (m < N)%nat -> exists k, (d * m ^ S k < N ^ S k)%nat.
Proof.
  intros Hlt.
  destruct m as [| m'].
  - exists 0%nat; simpl; lia.
  - set (m := S m').
    exists (d * m)%nat.
    set (K := S (d * m)).
    pose proof (bernoulli_nat m K) as Hb.
    assert (HmK : (0 < m ^ K)%nat) by (apply Nat.neq_0_lt_0, Nat.pow_nonzero; unfold m; lia).
    assert (H1 : (m * (m ^ K * (1 + d)) <= m * (m + 1) ^ K)%nat)
      by (unfold K in *; nia).
    apply Nat.mul_le_mono_pos_l in H1; [| unfold m; lia].
    assert (H2 : ((m + 1) ^ K <= N ^ K)%nat) by (apply Nat.pow_le_mono_l; unfold m in *; lia).
    fold K; nia.
Qed.

(** C9 (amended): for a non-empty grid whose dimensions survive [as i32]
    (0 < width, height < 2^31):
    - if [exclude] covers the whole grid, [rand_point] never returns: for
      every generator and every amount of fuel it is still looping;
    - if some grid cell is free, let [m] be the number of excluded cells
      and [N = width * height] the number of cells: [m < N], and among the
      [N^(k+1)] equally likely sequences of [k+1] uniform draws exactly
      [m^(k+1)] leave the loop still running, a fraction that falls below
      any [1/d]; so the loop terminates with probability 1. *)
Theorem rand_point_termination w h ex :
  0 < w < 2 ^ 31 -> 0 < h < 2 ^ 31 ->
  ((forall q, 0 <= x q < w -> 0 <= y q < h -> In q ex) ->
   forall rng fuel s, rand_point rng fuel w h ex s = Diverge) /\
  ((exists q, 0 <= x q < w /\ 0 <= y q < h /\ ~ In q ex) ->
   let G := grid_points w h in
   let m := length (filter (contains ex) G) in
   (m < length G)%nat /\
   length G = (Z.to_nat w * Z.to_nat h)%nat /\
   (forall k, length (rand_point_still_running w h ex k) = (m ^ S k)%nat /\
              length (grid_seqs G (S k)) = (length G ^ S k)%nat) /\
   (forall d, exists k,
      (d * length (rand_point_still_running w h ex k) < length (grid_seqs G (S k)))%nat)).
Proof.
  intros Hw Hh; split.
  - intros Hfull rng fuel s; unfold rand_point.
    destruct (draw_in_grid rng w h s Hw Hh) as (q & -> & Hqx & Hqy); simpl.
    apply rand_point_loop_full; assumption.
  - intros (q & Hqx & Hqy & Hq) G m.
    assert (Hm : (m < length G)%nat).
    { apply (filter_length_lt _ G q); [apply grid_points_In; auto |].
      apply contains_false_not_In; exact Hq. }
    assert (Hcount : forall k, length (rand_point_still_running w h ex k) = (m ^ S k)%nat).
    { intros k; unfold rand_point_still_running, m.
      rewrite <- count_forallb_grid_seqs; f_equal.
      apply filter_ext_in; intros l Hl.
      apply grid_seqs_In in Hl as [Hlen Hin].
      assert (Hg : forall q', In q' l -> 0 <= x q' < w /\ 0 <= y q' < h)
        by (intros q' Hq'; apply grid_points_In; auto).
      pose proof (rand_point_stream_of w h ex l k Hw Hh Hg Hlen) as E.
      destruct (rand_point (stream_of l) k w h ex 0); simpl;
        destruct (forallb (contains ex) l); intuition congruence. }
    split; [exact Hm |]; split; [apply length_grid_points |].
    split; [intros k; split; [apply Hcount | apply length_grid_seqs] |].
    intros d; destruct (geometric_small m (length G) d Hm) as [k Hk].
    exists k; rewrite Hcount, length_grid_seqs; exact Hk.
Qed.

Lemma rand_point_termination_witness :
  rand_point (fun _ => 0) 3 1 1 [point_new 0 0] 0 = Diverge /\
  (length (rand_point_still_running 2 1 [point_new 0 0] 1) = 1%nat).
Proof.
  split.
  - destruct (rand_point_termination 1 1 [point_new 0 0] ltac:(lia) ltac:(lia))
      as [Hfull _].
    apply Hfull; intros [qx qy] Hx Hy; simpl in *.
    left; f_equal; lia.
  - destruct (rand_point_termination 2 1 [point_new 0 0] ltac:(lia) ltac:(lia))
      as [_ Hfree].
    destruct Hfree as (_ & _ & Hc & _).
    + exists (point_new 1 0); simpl; split; [lia | split; [lia |]].
      intros [H | []]; discriminate.
    + destruct (Hc 1%nat) as [H _]; exact H.
Defined.

(** * Beyond the claims: directions, input, the game loop, rendering *)

(** [Direction::opposite] is an involution without fixed points, and the
    opposite direction's unit vector is the negated unit vector. *)
Theorem opposite_to_vector d :
  opposite (opposite d) = d /\ opposite d <> d /\
  vx (to_vector (opposite d)) = - vx (to_vector d) /\
  vy (to_vector (opposite d)) = - vy (to_vector d).
Proof. destruct d; simpl; repeat split; discriminate. Qed.

(** [change_direction] never turns the snek around: the new direction is
    never the opposite of the old one, and nothing but the direction
    changes. *)
Lemma change_direction_frame sn d :
  direction (change_direction sn d) <> opposite (direction sn) /\
  body (change_direction sn d) = body sn /\
  start_len (change_direction sn d) = start_len sn /\
  eating (change_direction sn d) = eating sn /\
  alive (change_direction sn d) = alive sn.
Proof.
  destruct sn as [b sl dd e a]; unfold change_direction; simpl.
  destruct dd, d; simpl; repeat split; discriminate.
Qed.

Lemma input_cases g keys :
  GameLoop.input g keys = GameLoop.set_paused g (negb (paused g)) /\
    keys GameLoop.PAUSE_KEY = true \/
  (exists d, GameLoop.input g keys = GameLoop.set_snek g (change_direction (snek g) d)) /\
    keys GameLoop.PAUSE_KEY = false \/
  GameLoop.input g keys = g /\ keys GameLoop.PAUSE_KEY = false.
Proof.
  unfold GameLoop.input.
  destruct (keys GameLoop.PAUSE_KEY); [left; auto | right].
  destruct (keys GameLoop.UP_KEY); [left; eauto |].
  destruct (keys GameLoop.DOWN_KEY); [left; eauto |].
  destruct (keys GameLoop.LEFT_KEY); [left; eauto |].
  destruct (keys GameLoop.RIGHT_KEY); [left; eauto | right; auto].
Qed.

(** What one call of [Game::input] changes. *)
Lemma input_effect g keys :
  let g' := GameLoop.input g keys in
  body (snek g') = body (snek g) /\ food g' = food g /\
  width g' = width g /\ height g' = height g /\
  start_len (snek g') = start_len (snek g) /\ eating (snek g') = eating (snek g) /\
  alive (snek g') = alive (snek g) /\
  paused g' = xorb (keys GameLoop.PAUSE_KEY) (paused g) /\
  (keys GameLoop.PAUSE_KEY = true -> direction (snek g') = direction (snek g)) /\
  direction (snek g') <> opposite (direction (snek g)).
Proof.
  intros g'; subst g'.
  destruct (input_cases g keys) as [[-> Hk] | [[[d ->] Hk] | [-> Hk]]];
    rewrite Hk; simpl.
  - destruct (paused g); simpl; repeat split; auto; intros E;
      destruct (direction (snek g)); discriminate.
  - destruct (change_direction_frame (snek g) d) as (Hd & Hb & Hs & He & Ha).
    repeat split; auto; discriminate.
  - repeat split; auto; try discriminate.
    intros E; destruct (direction (snek g)); discriminate.
Qed.

(** The shape of one pass of [Game::main_loop]. *)
Lemma tick_cases rng fuel g kb ka r g' fr r' :
  GameLoop.tick rng fuel g kb ka r = Ok (g', fr, r') ->
  exists a,
    ((kb GameLoop.QUIT_KEY = true /\ a = false) \/
     (kb GameLoop.QUIT_KEY = false /\ dead (snek g) (width g) (height g) = Ok (negb a))) /\
    GameLoop.draw (GameLoop.set_snek g (GameLoop.set_alive (snek g) a)) = Ok fr /\
    let g2 := GameLoop.input (GameLoop.set_snek g (GameLoop.set_alive (snek g) a)) ka in
    ((paused g2 = true /\ g' = g2 /\ r' = r) \/
     (paused g2 = false /\
      slither rng fuel (snek g2) (food g2) (width g2) (height g2) r = Ok (snek g', food g', r') /\
      g' = GameLoop.set_food (GameLoop.set_snek g2 (snek g')) (food g'))).
Proof.
  unfold GameLoop.tick.
  assert (Hrest : forall a,
    (let g1 := GameLoop.set_snek g (GameLoop.set_alive (snek g) a) in
     let* frame := GameLoop.draw g1 in
     let g2 := GameLoop.input g1 ka in
     if negb (paused g2) then
       let* (sf, r0) := slither rng fuel (snek g2) (food g2) (width g2) (height g2) r in
       let (sn', f') := sf in
       Ok (GameLoop.set_food (GameLoop.set_snek g2 sn') f', frame, r0)
     else Ok (g2, frame, r)) = Ok (g', fr, r') ->
    GameLoop.draw (GameLoop.set_snek g (GameLoop.set_alive (snek g) a)) = Ok fr /\
    let g2 := GameLoop.input (GameLoop.set_snek g (GameLoop.set_alive (snek g) a)) ka in
    ((paused g2 = true /\ g' = g2 /\ r' = r) \/
     (paused g2 = false /\
      slither rng fuel (snek g2) (food g2) (width g2) (height g2) r = Ok (snek g', food g', r') /\
      g' = GameLoop.set_food (GameLoop.set_snek g2 (snek g')) (food g')))).
  { intros a; cbv zeta.
    destruct (GameLoop.draw (GameLoop.set_snek g (GameLoop.set_alive (snek g) a)))
      as [frame | k |]; simpl; try discriminate.
    set (g2 := GameLoop.input (GameLoop.set_snek g (GameLoop.set_alive (snek g) a)) ka).
    destruct (paused g2) eqn:Hp; simpl.
    - intros H; inversion H; subst; split; [reflexivity | left; auto].
    - destruct (slither rng fuel (snek g2) (food g2) (width g2) (height g2) r)
        as [[[sn' f'] r0] | k |] eqn:Hs; simpl; try discriminate.
      intros H; inversion H; subst; split; [reflexivity | right].
      split; [reflexivity |]; split; reflexivity. }
  destruct (kb GameLoop.QUIT_KEY) eqn:Hq; simpl.
  - intros H; exists false; split; [left; auto | apply Hrest; exact H].
  - destruct (dead (snek g) (width g) (height g)) as [d | k |] eqn:Hd; simpl;
      try discriminate.
    intros H; exists (negb d); split; [right; rewrite negb_involutive; auto |].
    apply Hrest; exact H.
Qed.

(** While the game stays paused, a pass of the loop leaves the body, the
    food and the generator untouched. *)
Theorem tick_paused_frozen rng fuel g kb ka r g' fr r' :
  GameLoop.tick rng fuel g kb ka r = Ok (g', fr, r') ->
  paused g' = true ->
  body (snek g') = body (snek g) /\ food g' = food g /\ r' = r /\
  width g' = width g /\ height g' = height g.
Proof.
  intros H Hp; apply tick_cases in H as (a & _ & _ & Hcase); cbv zeta in Hcase.
  destruct (input_effect (GameLoop.set_snek g (GameLoop.set_alive (snek g) a)) ka)
    as (Hb & Hf & Hw & Hh & _).
  destruct Hcase as [(_ & -> & ->) | (Hp2 & _ & Heq)];
    [| rewrite Heq in Hp; simpl in Hp; congruence].
  rewrite Hb, Hf, Hw, Hh; simpl; auto.
Qed.

Lemma tick_paused_frozen_witness :
  exists g' fr,
    GameLoop.tick (fun _ => 0) 0 (mkGame (snek_new STARTING_BODY) (point_new 9 9) true 17 15)
      (fun _ => false) (fun _ => false) 0 = Ok (g', fr, 0%nat) /\
    body (snek g') = STARTING_BODY.
Proof.
  eexists; eexists; split; [reflexivity |].
  match goal with |- body (snek ?g') = _ =>
    destruct (tick_paused_frozen (fun _ => 0) 0
                (mkGame (snek_new STARTING_BODY) (point_new 9 9) true 17 15)
                (fun _ => false) (fun _ => false) 0 g' _ 0%nat eq_refl eq_refl)
      as (Hb & _) end.
  exact Hb.
Defined.

(** Arrow keys still turn the snek while the game is paused: the pause
    key is only toggled when pressed, and [input] then goes on to the
    direction keys; the body stays where it is. *)
Theorem paused_turn rng fuel g kb ka r g' fr r' :
  paused g = true ->
  ka GameLoop.PAUSE_KEY = false -> ka GameLoop.UP_KEY = true ->
  direction (snek g) <> Down ->
  GameLoop.tick rng fuel g kb ka r = Ok (g', fr, r') ->
  paused g' = true /\ direction (snek g') = Up /\ body (snek g') = body (snek g).
Proof.
  intros Hp Hpk Huk Hd H; apply tick_cases in H as (a & _ & _ & Hcase); cbv zeta in Hcase.
  assert (Hin : GameLoop.input (GameLoop.set_snek g (GameLoop.set_alive (snek g) a)) ka =
                GameLoop.set_snek (GameLoop.set_snek g (GameLoop.set_alive (snek g) a))
                  (change_direction (GameLoop.set_alive (snek g) a) Up))
    by (unfold GameLoop.input; rewrite Hpk, Huk; reflexivity).
  rewrite Hin in Hcase; simpl in Hcase; rewrite Hp in Hcase.
  destruct Hcase as [(_ & -> & _) | (Hf & _)]; [| discriminate].
  simpl; split; [exact Hp |].
  unfold change_direction; simpl.
  destruct (direction (snek g)) eqn:E; simpl; (split; [reflexivity || congruence | reflexivity]).
Qed.

Lemma paused_turn_witness :
  exists g' fr,
    GameLoop.tick (fun _ => 0) 0 (mkGame (snek_new STARTING_BODY) (point_new 9 9) true 17 15)
      (fun _ => false) GameLoop.up_only 0 = Ok (g', fr, 0%nat) /\
    direction (snek g') = Up.
Proof.
  eexists; eexists; split; [reflexivity |].
  match goal with |- direction (snek ?g') = _ =>
    destruct (paused_turn (fun _ => 0) 0
                (mkGame (snek_new STARTING_BODY) (point_new 9 9) true 17 15)
                (fun _ => false) GameLoop.up_only 0 g' _ 0%nat eq_refl eq_refl eq_refl
                ltac:(discriminate) eq_refl)
      as (_ & Hd & _) end.
  exact Hd.
Defined.


(** On a well formed snek [Snek::score] is the growth of the body. *)
Lemma score_inv sn :
  snek_inv sn -> score sn = Ok (length (body sn) - start_len sn)%nat.
Proof.
  intros [_ Hle]; unfold score, sub_usize.
  destruct (Nat.leb_spec (start_len sn) (length (body sn))); [reflexivity | lia].
Qed.





(** The pass of [Game::main_loop] that finds the snek dead still moves it
    when the game is not paused: the loop then stops on a game whose snek
    is [slither] of the dead snek, one cell past the collision. *)
Theorem moves_after_death rng fuel n keys i g r g' fr r' :
  alive (snek g) = true ->
  GameLoop.tick rng fuel g (keys i) (keys (S i)) r = Ok (g', fr, r') ->
  alive (snek g') = false -> paused g' = false ->
  GameLoop.main_loop rng fuel (S n) keys i g r = Ok (g', r') /\
  exists sn1,
    body sn1 = body (snek g) /\ alive sn1 = false /\
    slither rng fuel sn1 (food g) (width g) (height g) r = Ok (snek g', food g', r').
Proof.
  intros Ha Ht Ha' Hp'.
  split.
  { simpl; rewrite Ha, Ht; simpl; destruct n; simpl; rewrite Ha'; reflexivity. }
  apply tick_cases in Ht as (a & _ & _ & Hcase); cbv zeta in Hcase.
  set (g1 := GameLoop.set_snek g (GameLoop.set_alive (snek g) a)) in Hcase.
  destruct (input_effect g1 (keys (S i))) as (Hb & Hfd & Hw & Hh & _ & _ & Hal & _).
  destruct Hcase as [(Hp2 & Heq & _) | (_ & Hs & _)].
  { rewrite Heq in Hp'; congruence. }
  exists (snek (GameLoop.input g1 (keys (S i)))).
  rewrite Hfd, Hw, Hh in Hs.
  split; [rewrite Hb; reflexivity |]; split; [| exact Hs].
  apply slither_cases in Hs as (_ & _ & _ & _ & _ & _ & Hal' & _).
  congruence.
Qed.

Lemma moves_after_death_witness :
  exists sn1,
    body sn1 = [point_new 14 0; point_new 15 0; point_new 16 0; point_new 17 0] /\
    alive sn1 = false /\
    slither (fun _ => 0) 0 sn1 (point_new 7 7) 17 15 0 =
      Ok (mkSnek [point_new 15 0; point_new 16 0; point_new 17 0; point_new 18 0]
            4 Right false false, point_new 7 7, 0%nat).
Proof.
  let t := eval vm_compute in
    (GameLoop.draw (mkGame (mkSnek [point_new 14 0; point_new 15 0; point_new 16 0;
                                    point_new 17 0] 4 Right false false)
                     (point_new 7 7) false 17 15)) in
  match t with
  | Ok ?fr =>
    destruct (moves_after_death (fun _ => 0) 0 0 (fun _ _ => false) 0
      (mkGame (mkSnek [point_new 14 0; point_new 15 0; point_new 16 0; point_new 17 0]
                 4 Right false true) (point_new 7 7) false 17 15) 0
      (mkGame (mkSnek [point_new 15 0; point_new 16 0; point_new 17 0; point_new 18 0]
                 4 Right false false) (point_new 7 7) false 17 15)
      fr 0 eq_refl ltac:(vm_compute; reflexivity) eq_refl eq_refl) as (_ & Hex)
  end.
  exact Hex.
Defined.

(** ** The game never panics *)

(** Decide every in-range test of a checked operation by [lia]. *)
Ltac leb_lia :=
  repeat (match goal with
          | |- context [Z.leb ?a ?b] => destruct (Z.leb_spec a b); [| lia]
          end; simpl); try reflexivity.






Lemma cell_pxls_ok p px :
  - 2 ^ 29 <= x p <= 2 ^ 29 -> - 2 ^ 29 <= y p <= 2 ^ 29 ->
  GameLoop.cell_pxls p px =
    Ok [GameLoop.SetPxl (x p * 2 + 2) (y p + 1) px; GameLoop.SetPxl (x p * 2 + 3) (y p + 1) px].
Proof.
  intros Hx Hy; unfold GameLoop.cell_pxls, GameLoop.mul_i32, add_i32, i32_min, i32_max;
    leb_lia.
Qed.



Lemma draw_map_ok g :
  0 <= width g < 2 ^ 29 -> 0 <= height g < 2 ^ 29 ->
  GameLoop.draw_map g =
    Ok [GameLoop.Fill (GameLoop.pxl_bg (Ascii.ascii_of_nat 32) GameLoop.BORDER_COLOR);
        GameLoop.FillRect 2 1 (width g * 2 + 1) (height g)
          (GameLoop.pxl_bg (Ascii.ascii_of_nat 32) GameLoop.MAP_COLOR)].
Proof.
  intros Hw Hh; unfold GameLoop.draw_map, GameLoop.engine_width, GameLoop.engine_height.
  rewrite !as_i32_small by lia; unfold sub_i32, i32_min, i32_max; leb_lia.
  replace (width g * 2 + 4 - 3) with (width g * 2 + 1) by ring.
  replace (height g + 2 - 2) with (height g) by ring; reflexivity.
Qed.

Lemma string_length_append (a b : String.string) :
  String.length (String.append a b) = (String.length a + String.length b)%nat.
Proof. induction a as [| c a IH]; simpl; [reflexivity | rewrite IH; reflexivity]. Qed.

Lemma to_digits_length f n k :
  (1 <= k)%nat -> Z.of_nat n < 10 ^ Z.of_nat k ->
  (String.length (GameLoop.to_digits f n) <= k)%nat.
Proof.
  revert n k; induction f as [| f IH]; intros n k Hk Hn; cbn [GameLoop.to_digits];
    [simpl; lia |].
  destruct (Nat.ltb_spec n 10); [simpl; lia |].
  rewrite string_length_append; cbn [String.length].
  destruct k as [| k]; [lia |].
  assert (Hk' : (1 <= k)%nat).
  { destruct k; [| lia]. simpl in Hn; lia. }
  assert (Z.of_nat (n / 10) < 10 ^ Z.of_nat k).
  { rewrite Nat2Z.inj_div; apply Z.div_lt_upper_bound; [lia |].
    rewrite Nat2Z.inj_succ, Z.pow_succ_r in Hn by lia.
    change (Z.of_nat 10) with 10; lia. }
  specialize (IH (n / 10)%nat k Hk' H0); lia.
Qed.

Lemma usize_to_string_nonempty n : (1 <= String.length (GameLoop.usize_to_string n))%nat.
Proof.
  unfold GameLoop.usize_to_string; cbn [GameLoop.to_digits].
  destruct (n <? 10)%nat; [simpl; lia |].
  rewrite string_length_append; cbn [String.length]; lia.
Qed.

Lemma sub_u32_le a b : b <= a -> GameLoop.sub_u32 a b = Ok (a - b).
Proof. intros H; unfold GameLoop.sub_u32; destruct (Z.leb_spec b a); [reflexivity | lia]. Qed.

Lemma sub_u32_gt a b : a < b -> GameLoop.sub_u32 a b = Panic Overflow.
Proof. intros H; unfold GameLoop.sub_u32; destruct (Z.leb_spec b a); [lia | reflexivity]. Qed.

(** The two outcomes of [Game::draw_prompts]. *)
Lemma draw_prompts_cases g :
  snek_inv (snek g) -> 0 <= width g < 2 ^ 29 -> 0 <= height g < 2 ^ 29 ->
  Z.of_nat (length (body (snek g))) < 10 ^ 20 ->
  let s := String.append GameLoop.SCORE_PROMPT
             (GameLoop.usize_to_string (length (body (snek g)) - start_len (snek g))) in
  let prompt := if paused g then GameLoop.PAUSE_PROMPT else GameLoop.GAME_PROMPT in
  (Z.of_nat (String.length s) / 2 <= width g + 2 ->
   GameLoop.draw_prompts g =
     Ok [GameLoop.PrintFbg (width g + 2 - Z.of_nat (String.length s) / 2) (height g + 1)
           s GameLoop.Reset GameLoop.BORDER_COLOR;
         GameLoop.PrintFbg (width g + 2 - Z.of_nat (String.length prompt) / 2) 0
           prompt GameLoop.Reset GameLoop.BORDER_COLOR]) /\
  (width g + 2 < Z.of_nat (String.length s) / 2 -> GameLoop.draw_prompts g = Panic Overflow) /\
  (11 <= width g -> Z.of_nat (String.length s) / 2 <= width g + 2).
Proof.
  intros Hinv Hw Hh Hlen s prompt.
  assert (Hsc : GameLoop.game_score g =
                Ok (length (body (snek g)) - start_len (snek g))%nat)
    by (unfold GameLoop.game_score; apply score_inv, Hinv).
  assert (Hd : (String.length (GameLoop.usize_to_string
                  (length (body (snek g)) - start_len (snek g))) <= 20)%nat).
  { apply to_digits_length; [lia |]. change (Z.of_nat 20) with 20; lia. }
  pose proof (usize_to_string_nonempty (length (body (snek g)) - start_len (snek g))) as Hd1.
  assert (Hs : String.length s = (7 + String.length (GameLoop.usize_to_string
                  (length (body (snek g)) - start_len (snek g))))%nat)
    by (subst s; rewrite string_length_append; reflexivity).
  assert (Hp : Z.of_nat (String.length prompt) / 2 <= 3)
    by (subst prompt; destruct (paused g); reflexivity || discriminate).
  assert (Hew : GameLoop.engine_width g / 2 = width g + 2).
  { unfold GameLoop.engine_width.
    replace (width g * 2 + 4) with ((width g + 2) * 2) by ring.
    apply Z.div_mul; lia. }
  assert (HL : 8 <= Z.of_nat (String.length s) <= 27) by (rewrite Hs; lia).
  assert (Hmod : Z.of_nat (String.length s) mod 2 ^ 32 = Z.of_nat (String.length s))
    by (apply Z.mod_small; lia).
  assert (Hlo : 4 <= Z.of_nat (String.length s) / 2).
  { apply Z.div_le_lower_bound; [lia | exact (proj1 HL)]. }
  assert (Hhi : Z.of_nat (String.length s) / 2 < 14).
  { apply Z.div_lt_upper_bound; [lia | apply (Z.le_lt_trans _ 27); [exact (proj2 HL) | reflexivity]]. }
  unfold GameLoop.draw_prompts; rewrite Hsc; cbn [bind]; fold s; rewrite Hew, Hmod.
  split; [| split; [| lia]].
  - intros Hle; rewrite sub_u32_le by exact Hle; cbn [bind].
    unfold GameLoop.engine_height; rewrite as_i32_small, sub_i32_small by lia; cbn [bind].
    fold prompt.
    assert (Hmod2 : Z.of_nat (String.length prompt) mod 2 ^ 32 = Z.of_nat (String.length prompt))
      by (apply Z.mod_small; subst prompt; destruct (paused g); simpl; lia).
    rewrite Hmod2, sub_u32_le by lia; cbn [bind].
    rewrite !as_i32_small by (split; [lia | ]; assert (0 <= Z.of_nat (String.length prompt) / 2)
                                by (apply Z.div_pos; lia); lia).
    replace (height g + 2 - 1) with (height g + 1) by ring; reflexivity.
  - intros Hlt; rewrite sub_u32_gt by exact Hlt; reflexivity.
Qed.

(** [Game::draw_prompts] centres the score line on the bottom border row
    and the game or pause prompt on the top row. Half the score line's
    length is subtracted from half the engine width on [u32]. On a grid
    too narrow for the score line this underflows and the frame panics.
    From 11 columns on, any score below [10^20] fits. *)
Theorem draw_prompts_spec g :
  snek_inv (snek g) -> 0 <= width g < 2 ^ 29 -> 0 <= height g < 2 ^ 29 ->
  Z.of_nat (length (body (snek g))) < 10 ^ 20 ->
  let s := String.append GameLoop.SCORE_PROMPT
             (GameLoop.usize_to_string (length (body (snek g)) - start_len (snek g))) in
  let prompt := if paused g then GameLoop.PAUSE_PROMPT else GameLoop.GAME_PROMPT in
  (Z.of_nat (String.length s) / 2 <= width g + 2 ->
   GameLoop.draw_prompts g =
     Ok [GameLoop.PrintFbg (width g + 2 - Z.of_nat (String.length s) / 2) (height g + 1)
           s GameLoop.Reset GameLoop.BORDER_COLOR;
         GameLoop.PrintFbg (width g + 2 - Z.of_nat (String.length prompt) / 2) 0
           prompt GameLoop.Reset GameLoop.BORDER_COLOR]) /\
  (width g + 2 < Z.of_nat (String.length s) / 2 -> GameLoop.draw_prompts g = Panic Overflow) /\
  (11 <= width g -> Z.of_nat (String.length s) / 2 <= width g + 2).
Proof. exact (draw_prompts_cases g). Qed.

Lemma draw_prompts_spec_witness :
  GameLoop.draw_prompts (mkGame (snek_new STARTING_BODY) (point_new 0 0) false 1 15) =
    Panic Overflow.
Proof.
  destruct (draw_prompts_spec (mkGame (snek_new STARTING_BODY) (point_new 0 0) false 1 15)
              ltac:(split; [discriminate | simpl; lia]) ltac:(simpl; lia) ltac:(simpl; lia)
              ltac:(vm_compute; reflexivity)) as (_ & Hpanic & _).
  apply Hpanic; vm_compute; reflexivity.
Defined.

(** Where [Game::draw_food] and [Game::draw_snek] put a cell: a grid cell
    [(x, y)] becomes the two terminal cells [(2x+2, y+1)] and [(2x+3, y+1)],
    inside the map rectangle that [Game::draw_map] fills; cells one step
    off the grid (where a snek that has just hit a wall has its head) still
    land on the engine's screen, on the border; and two grid cells never
    share a terminal cell. *)
Theorem cell_placement g p px :
  0 <= width g < 2 ^ 29 -> 0 <= height g < 2 ^ 29 ->
  GameLoop.near_grid (width g) (height g) p ->
  GameLoop.cell_pxls p px =
    Ok [GameLoop.SetPxl (x p * 2 + 2) (y p + 1) px; GameLoop.SetPxl (x p * 2 + 3) (y p + 1) px] /\
  GameLoop.draw_map g =
    Ok [GameLoop.Fill (GameLoop.pxl_bg (Ascii.ascii_of_nat 32) GameLoop.BORDER_COLOR);
        GameLoop.FillRect 2 1 (width g * 2 + 1) (height g)
          (GameLoop.pxl_bg (Ascii.ascii_of_nat 32) GameLoop.MAP_COLOR)] /\
  (0 <= x p * 2 + 2 /\ x p * 2 + 3 < GameLoop.engine_width g /\
   0 <= y p + 1 < GameLoop.engine_height g) /\
  (0 <= x p < width g -> 0 <= y p < height g ->
   2 <= x p * 2 + 2 /\ x p * 2 + 3 <= width g * 2 + 1 /\ 1 <= y p + 1 <= height g) /\
  (forall q, (x q * 2 + 2 = x p * 2 + 2 \/ x q * 2 + 2 = x p * 2 + 3 \/
              x q * 2 + 3 = x p * 2 + 2 \/ x q * 2 + 3 = x p * 2 + 3) ->
             y q + 1 = y p + 1 -> q = p).
Proof.
  intros Hw Hh [Hx Hy].
  split; [apply cell_pxls_ok; lia |].
  split; [apply draw_map_ok; lia |].
  unfold GameLoop.engine_width, GameLoop.engine_height.
  split; [lia | split; [lia |]].
  intros q Hc Hr; destruct p as [px0 py0], q as [qx qy]; simpl in *.
  f_equal; lia.
Qed.

Lemma cell_placement_witness :
  GameLoop.cell_pxls (point_new 17 0) (GameLoop.pxl_bg (Ascii.ascii_of_nat 32) GameLoop.SNEK_COLOR) =
    Ok [GameLoop.SetPxl 36 1 (GameLoop.pxl_bg (Ascii.ascii_of_nat 32) GameLoop.SNEK_COLOR);
        GameLoop.SetPxl 37 1 (GameLoop.pxl_bg (Ascii.ascii_of_nat 32) GameLoop.SNEK_COLOR)] /\
  37 < GameLoop.engine_width (mkGame (snek_new STARTING_BODY) (point_new 7 7) false 17 15).
Proof.
  destruct (cell_placement (mkGame (snek_new STARTING_BODY) (point_new 7 7) false 17 15)
              (point_new 17 0) (GameLoop.pxl_bg (Ascii.ascii_of_nat 32) GameLoop.SNEK_COLOR)
              ltac:(simpl; lia) ltac:(simpl; lia) ltac:(unfold GameLoop.near_grid; simpl; lia))
    as (Hc & _ & (_ & He & _) & _).
  split; [exact Hc | exact He].
Defined.








(** [Game::input] changes only the pause flag or the snek's direction.
    The pause key toggles [paused], and then nothing else happens. The
    body, the food, the grid and the other snek fields are never touched,
    and the snek is never turned around. *)
Theorem input_frame g keys :
  let g' := GameLoop.input g keys in
  body (snek g') = body (snek g) /\ food g' = food g /\
  width g' = width g /\ height g' = height g /\
  start_len (snek g') = start_len (snek g) /\ eating (snek g') = eating (snek g) /\
  alive (snek g') = alive (snek g) /\
  paused g' = xorb (keys GameLoop.PAUSE_KEY) (paused g) /\
  (keys GameLoop.PAUSE_KEY = true -> direction (snek g') = direction (snek g)) /\
  direction (snek g') <> opposite (direction (snek g)).
Proof. exact (input_effect g keys). Qed.
